(** * frequency-finder maintenance scripts: a shallow embedding

    Two Python scripts are modelled here.

    - [clean_xcode_references.py] reads an Xcode manifest, deletes with
      [re.sub] every line that mentions one of five file names, and
      writes the text back after copying the manifest to a backup.
    - [update_project_files.py] checks that four key files exist under
      a base directory and prints a mark per file.

    Python text is a sequence of code points, so a character is a
    number ([N]) and a [str] a list of them.  The regular expressions
    of the cleaner use only [.*], escaped literals and [\n]; they are
    run by a backtracking matcher with Python's greedy priorities, and
    [re.sub] is the left-to-right scan over non-overlapping matches.
    The file system is a finite map from paths to file contents, and a
    script is a computation in a state-and-exception monad that records
    every file-system call and every [print] in a trace. *)

From Stdlib Require Import Ascii String.
From stdpp Require Import base option list strings gmap fin_maps.

Local Open Scope N_scope.
Local Open Scope nat_scope.
Local Open Scope list_scope.

(** ** Text *)

Definition char := N.
Definition str := list char.

(** The newline character, [\n]. *)
Definition NL : char := 10%N.

(** A Python string literal made of ASCII characters. *)
Definition py (s : string) : str :=
  map N_of_ascii (list_ascii_of_string s).

(** [sub in s]: some suffix of [s] starts with [sub]. *)
Fixpoint starts_with (sub s : str) : bool :=
  match sub, s with
  | [], _ => true
  | _ :: _, [] => false
  | a :: sub', b :: s' => (a =? b)%N && starts_with sub' s'
  end.

Fixpoint contains (sub s : str) : bool :=
  starts_with sub s ||
  match s with
  | [] => false
  | _ :: s' => contains sub s'
  end.

(** A text without a newline: the content of one line. *)
Definition nl_free (s : str) : Prop := Forall (fun c => c ≠ NL) s.

(** ** Lines

    [split_lines s] is the list of newline-terminated lines of [s]
    (without their terminators) and what follows the last newline: the
    final line when the text does not end with a newline, the empty
    text otherwise. *)

Fixpoint split_lines (s : str) : list str * str :=
  match s with
  | [] => ([], [])
  | c :: s' =>
      let '(ls, tl) := split_lines s' in
      if (c =? NL)%N then ([] :: ls, tl)
      else match ls with
           | [] => ([], c :: tl)
           | l :: ls' => ((c :: l) :: ls', tl)
           end
  end.

Definition unlines (ls : list str) (tl : str) : str :=
  concat (map (fun l => l ++ [NL]) ls) ++ tl.

(** Every line of the text, the unterminated final one included. *)
Definition all_lines (s : str) : list str :=
  let '(ls, tl) := split_lines s in
  match tl with [] => ls | _ => ls ++ [tl] end.

(** ** Regular expressions

    The three patterns are concatenations of [.*], literal characters
    (what [re.escape] makes of a file name) and [\n].  A pattern is a
    list of items; an item matches one character of a class, or
    greedily as many as it can. *)

Inductive cls :=
  | Any              (* [.] without DOTALL: any character but newline *)
  | Chr (c : char).  (* a literal character *)

Inductive item :=
  | One (k : cls)    (* exactly one character of the class *)
  | Star (k : cls).  (* [k*], greedy *)

Definition pattern := list item.

Definition cls_ok (k : cls) (c : char) : bool :=
  match k with
  | Any => negb (c =? NL)%N
  | Chr d => (c =? d)%N
  end.

(** [match_here p s] anchors [p] at the start of [s], as [re.match]
    does, and returns the text left after the first match in
    backtracking order: a star first takes as many characters as it
    can and gives them back one at a time when the rest of the pattern
    fails. *)
Fixpoint match_here (p : pattern) : str -> option str :=
  match p with
  | [] => fun s => Some s
  | One k :: p' => fun s =>
      match s with
      | c :: s' => if cls_ok k c then match_here p' s' else None
      | [] => None
      end
  | Star k :: p' =>
      fix star (s : str) : option str :=
        match s with
        | c :: s' =>
            if cls_ok k c then
              match star s' with
              | Some r => Some r
              | None => match_here p' s
              end
            else match_here p' s
        | [] => match_here p' []
        end
  end.

(** The scan of [re.sub] and [re.finditer]: try the pattern at the
    current position; on a non-empty match emit it and go on behind
    it; otherwise keep the character and move one position on.
    [skip] counts the characters of the current match still to pass.
    An empty match replaces nothing when the replacement is the empty
    string, and for these patterns (greedy stars only) an empty first
    match means that no other match starts there, so the position is
    treated like one without a match. *)
Inductive piece :=
  | Kept (c : char)
  | Matched (m : str).

Fixpoint scan (p : pattern) (skip : nat) (s : str) : list piece :=
  match s with
  | [] => []
  | c :: s' =>
      match skip with
      | S k => scan p k s'
      | O =>
          match match_here p s with
          | Some r =>
              match length s - length r with
              | O => Kept c :: scan p 0 s'
              | S k as n => Matched (take n s) :: scan p k s'
              end
          | None => Kept c :: scan p 0 s'
          end
      end
  end.

(** [re.sub(p, '', s)]: the kept characters, every match deleted. *)
Definition re_sub (p : pattern) (s : str) : str :=
  flat_map (fun x => match x with Kept c => [c] | Matched _ => [] end)
           (scan p 0 s).

(** [re.finditer]: the matches with their start offsets. *)
Fixpoint spans (i : nat) (ps : list piece) : list (nat * str) :=
  match ps with
  | [] => []
  | Kept _ :: ps' => spans (S i) ps'
  | Matched m :: ps' => (i, m) :: spans (i + length m) ps'
  end.

Definition finditer (p : pattern) (s : str) : list (nat * str) :=
  spans 0 (scan p 0 s).

(** ** The cleaner's transform *)

(** [re.escape(name)] as a pattern: the name, character by character. *)
Definition re_escape (name : str) : pattern := map (fun c => One (Chr c)) name.

Definition dot_star : pattern := [Star Any].
Definition newline : pattern := [One (Chr NL)].

(** [rf'.*{re.escape(old_file)}.*in Sources.*\n'] *)
Definition pat_build_file (old_file : str) : pattern :=
  dot_star ++ re_escape old_file ++ dot_star ++
  re_escape (py "in Sources") ++ dot_star ++ newline.

(** [rf'.*{re.escape(old_file)}.*\n'] *)
Definition pat_file_ref (old_file : str) : pattern :=
  dot_star ++ re_escape old_file ++ dot_star ++ newline.

(** [rf'.*{re.escape(old_file)}.*Sources.*\n'] *)
Definition pat_build_phase (old_file : str) : pattern :=
  dot_star ++ re_escape old_file ++ dot_star ++
  re_escape (py "Sources") ++ dot_star ++ newline.

Definition old_files : list str :=
  [ py "OldEnhancedSpotifyManager.swift";
    py "OldUnifiedSpotifyManager.swift";
    py "OldPersistentSpotifyView.swift";
    py "OldSpotifyManager.swift";
    py "OldSimpleSpotifyManager.swift" ].

(** The body of the [for old_file in old_files] loop. *)
Definition remove_file (content : str) (old_file : str) : str :=
  let content := re_sub (pat_build_file old_file) content in
  let content := re_sub (pat_file_ref old_file) content in
  let content := re_sub (pat_build_phase old_file) content in
  content.

(** The whole loop. *)
Definition clean (content : str) : str :=
  fold_left remove_file old_files content.

(** ** What a pattern matches

    The declarative reading of a pattern, against which the matcher is
    checked: [matches p u] holds when [p] matches exactly the text [u]. *)

Inductive matches : pattern -> str -> Prop :=
  | matches_nil :
      matches [] []
  | matches_one k c p u :
      cls_ok k c = true -> matches p u -> matches (One k :: p) (c :: u)
  | matches_star_stop k p u :
      matches p u -> matches (Star k :: p) u
  | matches_star_step k c p u :
      cls_ok k c = true -> matches (Star k :: p) u ->
      matches (Star k :: p) (c :: u).

(** A class that never accepts a newline, and a pattern made of such
    classes: whatever it matches lies within one line. *)
Definition cls_inline (k : cls) : Prop :=
  match k with
  | Any => True
  | Chr c => c ≠ NL
  end.

Definition item_inline (i : item) : Prop :=
  match i with One k | Star k => cls_inline k end.

(** The shape of the three patterns: [.*], then items that stay within
    a line, then [\n]. *)
Definition line_pattern (q : pattern) : pattern :=
  dot_star ++ q ++ newline.

(** Does the pattern match the whole line [l] with its terminator? *)
Definition line_ok (p : pattern) (l : str) : bool :=
  match match_here p (l ++ [NL]) with
  | Some _ => true
  | None => false
  end.

(** The pieces of a scan that deletes whole lines: a line the pattern
    matches is one match, from its first character to its newline;
    every other character is kept. *)
Definition line_pieces (p : pattern) (ls : list str) (tl : str) : list piece :=
  flat_map (fun l => if line_ok p l then [Matched (l ++ [NL])]
                     else map Kept (l ++ [NL])) ls
  ++ map Kept tl.

(** A match that is one whole line of [s]: it starts at offset [i],
    which is the start of the text or follows a newline, and it is the
    line's content followed by the line's newline. *)
Definition whole_line_at (s : str) (i : nat) (m : str) : Prop :=
  ∃ pre l post,
    s = pre ++ l ++ NL :: post ∧ length pre = i ∧ m = l ++ [NL] ∧
    nl_free l ∧ (pre = [] ∨ ∃ pre', pre = pre' ++ [NL]).

(** The line mentions one of the five file names. *)
Definition mentions_old_file (l : str) : bool :=
  existsb (fun f => contains f l) old_files.

(** ** Files, output and exceptions

    The world a script runs in: the regular files with their content
    as text (what [read()] returns in text mode), and the trace of what
    the script has done so far.  Every call that touches the file
    system and every [print] appends an event.  Reading or copying a
    file that is not there raises [FileNotFoundError]; directories and
    other I/O failures (permissions, a full disk, undecodable bytes)
    are not part of the model. *)

(** What the scripts print, one constructor per [print] statement. *)
Inductive msg :=
  | MsgNotFound              (* project.pbxproj not found! *)
  | MsgBackup (p : string)   (* Created backup: {backup_file} *)
  | MsgCleaned (n : Z)       (* Cleaned {n} characters of old references *)
  | MsgBuildHint             (* Now clean build folder in Xcode ... *)
  | MsgNoRefs                (* No old file references found in project file *)
  | MsgChecking              (* Checking new file structure... *)
  | MsgPresent (f : string)  (* check mark, {file_path} *)
  | MsgMissing (f : string). (* cross, {file_path} *)

Inductive event :=
  | EvExists (p : string)
  | EvCopy (src dst : string)
  | EvRead (p : string)
  | EvWrite (p : string) (c : str)
  | EvPrint (m : msg).

Record world := World {
  files : gmap string str;
  trace : list event
}.

Inductive exn :=
  | FileNotFoundError (p : string).

Inductive result (A : Type) :=
  | Ok (a : A)
  | Raise (e : exn).
Arguments Ok {A} a.
Arguments Raise {A} e.

Definition io (A : Type) : Type := world -> result A * world.

#[global] Instance io_ret : MRet io := fun A a w => (Ok a, w).

#[global] Instance io_bind : MBind io := fun A B f m w =>
  match m w with
  | (Ok a, w') => f a w'
  | (Raise e, w') => (Raise e, w')
  end.

Definition log (e : event) (w : world) : world :=
  World (files w) (trace w ++ [e]).

(** [Path.exists()] *)
Definition path_exists (p : string) : io bool := fun w =>
  (Ok (bool_decide (is_Some (files w !! p))), log (EvExists p) w).

(** [shutil.copy2(src, dst)] *)
Definition copy2 (src dst : string) : io unit := fun w =>
  match files w !! src with
  | Some c => (Ok tt, World (<[dst := c]> (files w)) (trace w ++ [EvCopy src dst]))
  | None => (Raise (FileNotFoundError src), w)
  end.

(** [with open(p, 'r') as f: f.read()] *)
Definition read_text (p : string) : io str := fun w =>
  match files w !! p with
  | Some c => (Ok c, log (EvRead p) w)
  | None => (Raise (FileNotFoundError p), w)
  end.

(** [with open(p, 'w') as f: f.write(c)] *)
Definition write_text (p : string) (c : str) : io unit := fun w =>
  (Ok tt, World (<[p := c]> (files w)) (trace w ++ [EvWrite p c])).

Definition print (m : msg) : io unit := fun w =>
  (Ok tt, log (EvPrint m) w).

(** The events that change the file system. *)
Definition is_write (e : event) : bool :=
  match e with
  | EvCopy _ _ | EvWrite _ _ => true
  | _ => false
  end.

(** What was printed, in order. *)
Definition printed (t : list event) : list msg :=
  omap (fun e => match e with EvPrint m => Some m | _ => None end) t.

(** The paths whose existence was asked for, in order. *)
Definition exists_queries (t : list event) : list string :=
  omap (fun e => match e with EvExists p => Some p | _ => None end) t.

(** ** Paths *)

(** [s.rfind(c)] *)
Fixpoint rfind (c : ascii) (s : string) : option nat :=
  match s with
  | EmptyString => None
  | String a s' =>
      match rfind c s' with
      | Some i => Some (S i)
      | None => if Ascii.eqb a c then Some 0 else None
      end
  end.

(** The final component of a path and what precedes it. *)
Definition path_split (p : string) : string * string :=
  match rfind "/" p with
  | Some i => (substring 0 (S i) p, substring (S i) (String.length p - S i) p)
  | None => (EmptyString, p)
  end.

(** [PurePath.suffix] of a file name: from the last dot on, unless the
    dot is the first or the last character. *)
Definition name_suffix (name : string) : string :=
  match rfind "." name with
  | Some i =>
      if (0 <? i) && (i <? String.length name - 1)
      then substring i (String.length name - i) name
      else EmptyString
  | None => EmptyString
  end.

(** [PurePath.with_suffix(suffix)]: the last suffix of the final
    component is replaced. *)
Definition with_suffix (p suffix : string) : string :=
  let '(parent, name) := path_split p in
  let stem := substring 0 (String.length name - String.length (name_suffix name)) name in
  parent +:+ stem +:+ suffix.

(** [base / rel] for a relative [rel]. *)
Definition joinpath (base rel : string) : string :=
  base +:+ "/" +:+ rel.

(** ** clean_xcode_references.py *)

Definition project_file : string :=
  "/Users/davidnyman/Code/FrequencyFinder/FrequencyFinder.xcodeproj/project.pbxproj".

Definition backup_file : string :=
  with_suffix project_file ".pbxproj.backup".

Definition clean_xcode_references : io bool :=
  found ← path_exists project_file;
  if negb found then
    print MsgNotFound;;
    mret false
  else
    (* Create backup *)
    copy2 project_file backup_file;;
    print (MsgBackup backup_file);;
    (* Read the project file *)
    content ← read_text project_file;
    (* Remove file references *)
    let original_length := length content in
    let content := clean content in
    if negb (length content =? original_length) then
      (* Write the cleaned content *)
      write_text project_file content;;
      print (MsgCleaned (Z.of_nat original_length - Z.of_nat (length content)));;
      print MsgBuildHint;;
      mret true
    else
      print MsgNoRefs;;
      mret false.

(** ** update_project_files.py *)

(** The dictionary [create_file_mapping] returns. *)
Definition create_file_mapping : gmap string string :=
  list_to_map
    [ ("FrequencyFinder.swift", "App/FrequencyFinder.swift");
      ("AppDelegate.swift", "App/AppDelegate.swift");
      ("TunerScreen.swift", "App/TunerScreen.swift");
      ("Models/Frequency.swift", "Core/Models/Audio/Frequency.swift");
      ("Models/PitchTracker.swift", "Core/Models/Audio/PitchTracker.swift");
      ("Models/Recorder.swift", "Core/Models/Audio/Recorder.swift");
      ("Models/TunerData.swift", "Core/Models/Audio/TunerData.swift");
      ("Models/ScaleNote.swift", "Core/Models/Music/ScaleNote.swift");
      ("Models/NoteMatcher.swift", "Core/Models/Music/NoteMatcher.swift");
      ("Models/ModifierPreference.swift", "Core/Models/Music/ModifierPreference.swift");
      ("Models/UserProfile.swift", "Core/Models/User/UserProfile.swift");
      ("Models/ReadingPassage.swift", "Core/Models/User/ReadingPassage.swift");
      ("Models/SpotifyUserProfile.swift", "Core/Models/Spotify/SpotifyUserProfile.swift");
      ("Models/StatisticsCalculator.swift", "Core/Utilities/StatisticsCalculator.swift");
      ("UserProfileManager.swift", "Core/Services/User/UserProfileManager.swift");
      ("Views/TunerView.swift", "Features/Tuner/Views/TunerView.swift");
      ("Views/ProfileView.swift", "Features/Profile/Views/ProfileView.swift");
      ("ViewModels/ReadingPassageViewModel.swift",
       "Features/ReadingPassage/ViewModels/ReadingPassageViewModel.swift");
      ("ViewModels/WebReadingPassageViewModel.swift",
       "Features/ReadingPassage/ViewModels/WebReadingPassageViewModel.swift");
      ("Helpers/Alignment.swift", "Supporting Files/Helpers/Alignment.swift");
      ("Helpers/Color+MusicalDistance.swift",
       "Supporting Files/Helpers/Color+MusicalDistance.swift") ].

Definition base_path : string :=
  "/Users/davidnyman/Code/FrequencyFinder/FrequencyFinder".

Definition key_files : list string :=
  [ "App/FrequencyFinder.swift";
    "Core/Models/Spotify/SpotifyModels.swift";
    "Core/Services/Spotify/SpotifyManager.swift";
    "Features/Spotify/Views/SpotifyView.swift" ].

(** The [for file_path in key_files] loop, with the value of
    [all_exist] so far. *)
Fixpoint check_key_files (todo : list string) (all_exist : bool) : io bool :=
  match todo with
  | [] => mret all_exist
  | file_path :: todo' =>
      let full_path := joinpath base_path file_path in
      found ← path_exists full_path;
      if (found : bool) then
        print (MsgPresent file_path);;
        check_key_files todo' all_exist
      else
        print (MsgMissing file_path);;
        check_key_files todo' false
  end.

Definition check_new_structure : io bool :=
  print MsgChecking;;
  check_key_files key_files true.

(** A fresh run: the world with an empty trace. *)
Definition start (fs : gmap string str) : world := World fs [].

(** The mark the checker prints for a key file. *)
Definition mark (fs : gmap string str) (file_path : string) : msg :=
  if bool_decide (is_Some (fs !! joinpath base_path file_path))
  then MsgPresent file_path else MsgMissing file_path.

(** [dict.values()] of the mapping. *)
Definition mapping_values : list string :=
  (map_to_list create_file_mapping).*2.

(** ** Sample manifests *)

Definition line_A : str := py "A.build /* OldSpotifyManager.swift in Sources */".
Definition line_B : str := py "B.build /* OtherFile.swift in Sources */".
Definition two_lines : str := line_A ++ [NL] ++ line_B ++ [NL].

(** ** Lines that the first and the third pattern delete

    [followed_by name key l]: [name] occurs in [l] and [key] occurs
    somewhere behind that occurrence. *)

Fixpoint followed_by (name key l : str) : bool :=
  (starts_with name l && contains key (drop (length name) l)) ||
  match l with
  | [] => false
  | _ :: l' => followed_by name key l'
  end.

(** ** The scripts' main blocks

    A script prints lines of its own around the call of its function.
    Its console holds the files and, in order, the lines printed by the
    main block and the events of the function it calls. *)

Inductive out :=
  | Line (text : str)   (* [print(text)] in the main block *)
  | Inner (e : event).  (* an event of the function called *)

Record console := Console {
  disk : gmap string str;
  output : list out
}.

Definition script (A : Type) : Type := console -> result A * console.

#[global] Instance script_ret : MRet script := fun A a k => (Ok a, k).

#[global] Instance script_bind : MBind script := fun A B f m k =>
  match m k with
  | (Ok a, k') => f a k'
  | (Raise e, k') => (Raise e, k')
  end.

Definition print_line (text : str) : script unit := fun k =>
  (Ok tt, Console (disk k) (output k ++ [Line text])).

(** A call of one of the two functions from a main block. *)
Definition call {A : Type} (f : io A) : script A := fun k =>
  let '(r, w) := f (start (disk k)) in
  (r, Console (files w) (output k ++ map Inner (trace w))).

(** [text * n] *)
Fixpoint str_repeat (text : str) (n : nat) : str :=
  match n with
  | O => []
  | S n' => text ++ str_repeat text n'
  end.

(** The [if __name__ == "__main__"] block of clean_xcode_references.py;
    the value the function returns is dropped. *)
Definition cleaner_script : script unit :=
  print_line ([128295%N] ++ py " Xcode Project Reference Cleaner");;
  print_line (str_repeat (py "=") 40);;
  _ ← call clean_xcode_references;
  mret tt.

Definition incomplete_line : str :=
  NL :: [10060%N] ++ py " New file structure is incomplete!".

(** [main] of update_project_files.py *)
Definition main : script unit :=
  print_line ([128295%N] ++ py " FrequencyFinder Project Structure Checker");;
  print_line (str_repeat (py "=") 50);;
  (* Check if new structure exists *)
  ok ← call check_new_structure;
  if negb ok then
    print_line incomplete_line;;
    mret tt
  else
    print_line (NL :: [9989%N] ++ py " New file structure verified!");;
    print_line (NL :: [128203%N] ++ py " MANUAL STEPS NEEDED:");;
    print_line (py "1. Open Xcode");;
    print_line (py "2. Delete any red/missing file references (Remove Reference Only)");;
    print_line (py "3. Right-click project " ++ [8594%N] ++
                py " 'Add Files to FrequencyFinder'");;
    print_line (py "4. Add these new folders:");;
    print_line (py "   - App/");;
    print_line (py "   - Core/");;
    print_line (py "   - Features/");;
    print_line (py "   - Supporting Files/");;
    print_line (NL :: [127919%N] ++ py " Your project should then build successfully!");;
    print_line (NL :: [128161%N] ++
      py " TIP: You can also use the new SpotifyView instead of PersistentSpotifyView").

(** The two lines [main] prints before the check. *)
Definition main_heading : list str :=
  [ [128295%N] ++ py " FrequencyFinder Project Structure Checker";
    str_repeat (py "=") 50 ].

(** The lines [main] prints once the structure is verified. *)
Definition manual_steps : list str :=
  [ NL :: [9989%N] ++ py " New file structure verified!";
    NL :: [128203%N] ++ py " MANUAL STEPS NEEDED:";
    py "1. Open Xcode";
    py "2. Delete any red/missing file references (Remove Reference Only)";
    py "3. Right-click project " ++ [8594%N] ++ py " 'Add Files to FrequencyFinder'";
    py "4. Add these new folders:";
    py "   - App/";
    py "   - Core/";
    py "   - Features/";
    py "   - Supporting Files/";
    NL :: [127919%N] ++ py " Your project should then build successfully!";
    NL :: [128161%N] ++
      py " TIP: You can also use the new SpotifyView instead of PersistentSpotifyView" ].

(** The lines of the main block among the output. *)
Definition lines_of (o : list out) : list str :=
  omap (fun x => match x with Line t => Some t | Inner _ => None end) o.

(** The folders named in the list of the fourth manual step. *)
Definition listed_folders (texts : list str) : list str :=
  omap (fun t => if starts_with (py "   - ") t then Some (drop 5 t) else None)
       texts.

(** * Properties *)

(** ** The definitions at work *)

Example match_here_backtracks :
  match_here (pat_file_ref (py "ab")) (py "xabyab" ++ [NL] ++ py "z") = Some (py "z").
Proof. vm_compute. reflexivity. Qed.

Example match_here_needs_newline :
  match_here (pat_file_ref (py "Old")) (py "an Old line") = None.
Proof. vm_compute. reflexivity. Qed.

Example re_sub_middle_line :
  re_sub (pat_file_ref (py "Old"))
         (py "keep" ++ [NL] ++ py "an Old line" ++ [NL] ++ py "last Old") =
  py "keep" ++ [NL] ++ py "last Old".
Proof. vm_compute. reflexivity. Qed.

Example finditer_middle_line :
  finditer (pat_file_ref (py "Old"))
           (py "keep" ++ [NL] ++ py "an Old line" ++ [NL] ++ py "last Old") =
  [(5, py "an Old line" ++ [NL])].
Proof. vm_compute. reflexivity. Qed.

Example build_file_pattern_wants_in_sources :
  re_sub (pat_build_file (py "Old.swift"))
         (py "1 /* Old.swift in Sources */" ++ [NL] ++ py "2 /* Old.swift */" ++ [NL]) =
  py "2 /* Old.swift */" ++ [NL].
Proof. vm_compute. reflexivity. Qed.

(** ** The matcher against the declarative reading *)

Lemma match_here_star k p s :
  match_here (Star k :: p) s =
  match s with
  | c :: s' =>
      if cls_ok k c then
        match match_here (Star k :: p) s' with
        | Some r => Some r
        | None => match_here p s
        end
      else match_here p s
  | [] => match_here p []
  end.
Proof. by destruct s. Qed.

Lemma match_here_sound p s r :
  match_here p s = Some r → ∃ u, s = u ++ r ∧ matches p u.
Proof.
  revert s r. induction p as [|[k|k] p IH]; intros s r.
  - intros [= <-]. exists []. split; [done | constructor].
  - destruct s as [|c s']; simpl; [done|].
    destruct (cls_ok k c) eqn:Hc; [|done].
    intros (u & -> & Hu)%IH. exists (c :: u). split; [done | by constructor].
  - induction s as [|c s' IHs]; rewrite match_here_star.
    + intros (u & -> & Hu)%IH. exists u. split; [done | by constructor].
    + assert (Hstop : match_here p (c :: s') = Some r →
                      ∃ u, c :: s' = u ++ r ∧ matches (Star k :: p) u).
      { intros (u & -> & Hu)%IH. exists u. split; [done | by constructor]. }
      destruct (cls_ok k c) eqn:Hc; [|done].
      destruct (match_here (Star k :: p) s') as [r'|]; [|done].
      intros [= ->]. destruct (IHs eq_refl) as (u & -> & Hu).
      exists (c :: u). split; [done | by constructor].
Qed.

Lemma match_here_star_stop k p s :
  is_Some (match_here p s) → is_Some (match_here (Star k :: p) s).
Proof.
  intros Hs. rewrite match_here_star. destruct s as [|c s']; [done|].
  destruct (cls_ok k c); [|done].
  by destruct (match_here (Star k :: p) s').
Qed.

Lemma match_here_complete p u r :
  matches p u → is_Some (match_here p (u ++ r)).
Proof.
  induction 1 as [|k c p u Hc _ IH|k p u _ IH|k c p u Hc _ IH]; simpl app.
  - by eexists.
  - simpl. by rewrite Hc.
  - by apply match_here_star_stop.
  - rewrite match_here_star, Hc.
    by destruct (match_here (Star k :: p) (u ++ r)).
Qed.

(** ** Patterns that stay within a line *)

Lemma matches_app p q u v :
  matches p u → matches q v → matches (p ++ q) (u ++ v).
Proof.
  induction 1; intros Hq; simpl; [done | | |].
  - constructor; auto.
  - apply matches_star_stop; auto.
  - apply matches_star_step; auto.
Qed.

Lemma matches_app_inv p q w :
  matches (p ++ q) w → ∃ u v, w = u ++ v ∧ matches p u ∧ matches q v.
Proof.
  remember (p ++ q) as pq eqn:E. intros H. revert p E.
  induction H as [|k c p' u Hc H IH|k p' u H IH|k c p' u Hc H IH]; intros p E.
  - symmetry in E. apply app_eq_nil in E as [-> ->].
    exists [], []. repeat split; constructor.
  - destruct p as [|i p].
    + simpl in E. subst q. exists [], (c :: u).
      repeat split; [constructor | by constructor].
    + injection E as <- ->. destruct (IH p eq_refl) as (u1 & v & -> & H1 & H2).
      exists (c :: u1), v. repeat split; [by constructor | done].
  - destruct p as [|i p].
    + simpl in E. subst q. exists [], u.
      repeat split; [constructor | by constructor].
    + injection E as <- ->. destruct (IH p eq_refl) as (u1 & v & -> & H1 & H2).
      exists u1, v. repeat split; [by constructor | done].
  - destruct p as [|i p].
    + simpl in E. subst q. exists [], (c :: u).
      repeat split; [constructor | by constructor].
    + injection E as <- ->.
      destruct (IH (Star k :: p) eq_refl) as (u1 & v & -> & H1 & H2).
      exists (c :: u1), v. repeat split; [by constructor | done].
Qed.

Lemma matches_re_escape name u : matches (re_escape name) u ↔ u = name.
Proof.
  split.
  - revert u. induction name as [|c name IH]; intros u H; inversion H; subst; [done|].
    simpl in *. apply N.eqb_eq in H2 as ->. f_equal. by apply IH.
  - intros ->. induction name as [|c name IH]; simpl; constructor; [|done].
    simpl. apply N.eqb_refl.
Qed.

Lemma cls_inline_ok k c : cls_inline k → cls_ok k c = true → c ≠ NL.
Proof.
  destruct k as [|d]; simpl.
  - intros _ H%negb_true_iff. by apply N.eqb_neq.
  - intros Hd H%N.eqb_eq. by subst.
Qed.

Lemma matches_inline p u : Forall item_inline p → matches p u → nl_free u.
Proof.
  intros Hp H. induction H as [|k c p u Hc H IH|k p u H IH|k c p u Hc H IH].
  - constructor.
  - inversion Hp; subst. constructor; [by eapply cls_inline_ok | by apply IH].
  - inversion Hp; subst. by apply IH.
  - constructor; [|by apply IH]. inversion Hp; subst. by eapply cls_inline_ok.
Qed.

Lemma matches_dot_star u : matches dot_star u ↔ nl_free u.
Proof.
  split.
  - apply matches_inline. by repeat constructor.
  - induction 1 as [|c u Hc _ IH].
    + apply matches_star_stop. constructor.
    + apply matches_star_step; [|done]. simpl. apply negb_true_iff. by apply N.eqb_neq.
Qed.

Lemma matches_newline u : matches newline u ↔ u = [NL].
Proof. apply (matches_re_escape [NL]). Qed.

(** A text has at most one first newline. *)
Lemma nl_split_unique (l l' t t' : str) :
  nl_free l → nl_free l' → l ++ NL :: t = l' ++ NL :: t' → l = l' ∧ t = t'.
Proof.
  intros Hl. revert l'. induction Hl as [|c l Hc _ IH]; intros l' Hl' E.
  - destruct Hl' as [|c' l' Hc' _]; simpl in E; [by injection E|].
    injection E as <- _. done.
  - destruct Hl' as [|c' l' Hc' Hl']; simpl in E.
    + injection E as -> _. done.
    + injection E as -> E. by destruct (IH l' Hl' E) as [-> ->].
Qed.

Lemma nl_free_app (u v : str) : nl_free (u ++ v) ↔ nl_free u ∧ nl_free v.
Proof. apply Forall_app. Qed.

Lemma nl_free_no_nl (u v : str) : ¬ nl_free (u ++ NL :: v).
Proof. intros [_ H]%Forall_app. by inversion H. Qed.

Section LinePattern.
(** [P] is [q ++ \n] with [q] staying within a line. *)
Variable q : pattern.
Hypothesis q_inline : Forall item_inline q.
Let P := q ++ newline.

Lemma line_matches u :
  matches P u ↔ ∃ l, u = l ++ [NL] ∧ nl_free l ∧ matches q l.
Proof.
  split.
  - intros (l & v & -> & Hl & ->%matches_newline)%matches_app_inv.
    exists l. eauto using matches_inline.
  - intros (l & -> & _ & Hl). apply matches_app; [done|]. by apply matches_newline.
Qed.

Lemma line_ok_matches l :
  nl_free l → line_ok P l = true ↔ matches P (l ++ [NL]).
Proof.
  intros Hl. unfold line_ok. split.
  - destruct (match_here P (l ++ [NL])) as [r|] eqn:E; [intros _|done].
    apply match_here_sound in E as (u & E & Hu).
    pose proof Hu as (l' & -> & Hl' & _)%line_matches.
    rewrite <-app_assoc in E. simpl in E.
    by apply nl_split_unique in E as [-> _].
  - intros H. apply (match_here_complete _ _ []) in H as [r H].
    rewrite app_nil_r in H. by rewrite H.
Qed.

(** Anchored at the start of a line, the pattern takes the whole
    line with its newline, or nothing. *)
Lemma match_here_line l t :
  nl_free l →
  match_here P (l ++ NL :: t) = if line_ok P l then Some t else None.
Proof.
  intros Hl. destruct (match_here P (l ++ NL :: t)) as [r|] eqn:E.
  - apply match_here_sound in E as (u & E & Hu).
    pose proof Hu as (l' & -> & Hl' & _)%line_matches.
    rewrite <-app_assoc in E. simpl in E.
    apply nl_split_unique in E as [-> ->]; [|done..].
    apply line_ok_matches in Hu; [|done]. by rewrite Hu.
  - destruct (line_ok P l) eqn:Hok; [|done].
    apply line_ok_matches in Hok; [|done].
    apply (match_here_complete _ _ t) in Hok as [r Hr].
    rewrite <-app_assoc in Hr. simpl in Hr. congruence.
Qed.

(** No newline, no match. *)
Lemma match_here_no_newline s : nl_free s → match_here P s = None.
Proof.
  intros Hs. destruct (match_here P s) as [r|] eqn:E; [|done].
  apply match_here_sound in E as (u & -> & (l & -> & _)%line_matches).
  rewrite <-!app_assoc in Hs. by apply nl_free_no_nl in Hs.
Qed.
End LinePattern.

(** ** The scan *)

Lemma scan_skip p k s : scan p k s = scan p 0 (drop k s).
Proof.
  revert k. induction s as [|c s IH]; intros [|k]; try done.
  simpl. apply IH.
Qed.

Lemma scan_match p (u r : str) :
  u ≠ [] → match_here p (u ++ r) = Some r →
  scan p 0 (u ++ r) = Matched u :: scan p 0 r.
Proof.
  intros Hu H. destruct u as [|c u]; [done|].
  change (scan p 0 ((c :: u) ++ r)) with
    (match match_here p ((c :: u) ++ r) with
     | Some r' =>
         match length ((c :: u) ++ r) - length r' with
         | O => Kept c :: scan p 0 (u ++ r)
         | S k as n => Matched (take n ((c :: u) ++ r)) :: scan p k (u ++ r)
         end
     | None => Kept c :: scan p 0 (u ++ r)
     end).
  rewrite H.
  replace (length ((c :: u) ++ r) - length r) with (S (length u))
    by (rewrite length_app; simpl; lia).
  rewrite scan_skip, drop_app_length.
  f_equal. f_equal.
  change (S (length u)) with (length (c :: u)). apply take_app_length.
Qed.

Lemma scan_keep p c (s : str) :
  match_here p (c :: s) = None → scan p 0 (c :: s) = Kept c :: scan p 0 s.
Proof. intros H. simpl. by rewrite H. Qed.

Lemma scan_keep_all p (l t : str) :
  (∀ l1 c l2, l = l1 ++ c :: l2 → match_here p (c :: l2 ++ t) = None) →
  scan p 0 (l ++ t) = map Kept l ++ scan p 0 t.
Proof.
  induction l as [|c l IH]; intros H; [done|].
  simpl app. rewrite scan_keep by apply (H [] c l eq_refl).
  simpl. f_equal. apply IH. intros l1 c' l2 ->.
  by apply (H (c :: l1) c' l2).
Qed.

(** ** Lines *)

Lemma unlines_cons l ls tl : unlines (l :: ls) tl = l ++ NL :: unlines ls tl.
Proof. unfold unlines. simpl. by rewrite <-!app_assoc. Qed.

Lemma split_lines_spec s :
  unlines (split_lines s).1 (split_lines s).2 = s ∧
  Forall nl_free (split_lines s).1 ∧ nl_free (split_lines s).2.
Proof.
  induction s as [|c s (IH1 & IH2 & IH3)]; simpl.
  - split_and!; constructor.
  - destruct (split_lines s) as [ls tl]. simpl in *.
    destruct (c =? NL)%N eqn:Hc.
    + apply N.eqb_eq in Hc as ->. simpl. rewrite unlines_cons. simpl.
      split_and!; [by f_equal | | done]. constructor; [constructor | done].
    + apply N.eqb_neq in Hc. destruct ls as [|l ls]; simpl.
      * split_and!; [by rewrite <-IH1 | done | by constructor].
      * rewrite unlines_cons in *. simpl. inversion IH2; subst.
        split_and!; [by f_equal | | done].
        constructor; [by constructor | done].
Qed.

Lemma split_lines_unlines ls tl :
  Forall nl_free ls → nl_free tl → split_lines (unlines ls tl) = (ls, tl).
Proof.
  intros Hls Htl. induction Hls as [|l ls Hl _ IH].
  - unfold unlines. simpl. induction Htl as [|c tl Hc _ IH]; [done|].
    simpl. rewrite IH. apply N.eqb_neq in Hc. by rewrite Hc.
  - rewrite unlines_cons. induction Hl as [|c l Hc _ IHl]; simpl.
    + by rewrite IH.
    + rewrite IHl. apply N.eqb_neq in Hc. by rewrite Hc.
Qed.

Section LineScan.
(** The shape of the cleaner's patterns: [.*], items that stay within
    a line, [\n]. *)
Variable q : pattern.
Hypothesis q_inline : Forall item_inline q.
Let P := line_pattern q.

Lemma line_pattern_inline : Forall item_inline (dot_star ++ q).
Proof. apply Forall_app. split; [by repeat constructor | done]. Qed.

Lemma line_pattern_eq : P = (dot_star ++ q) ++ newline.
Proof. unfold P, line_pattern. by rewrite app_assoc. Qed.

(** Thanks to the leading [.*], a match that starts inside a line
    extends to one that starts at the beginning of the line. *)
Lemma matches_extend_left l1 u :
  nl_free l1 → matches P u → matches P (l1 ++ u).
Proof.
  intros Hl1 Hu. induction Hl1 as [|c l1 Hc _ IH]; [done|].
  simpl. apply matches_star_step; [|done].
  simpl. apply negb_true_iff. by apply N.eqb_neq.
Qed.

Lemma line_ok_suffix l1 l2 :
  nl_free l1 → nl_free l2 →
  line_ok P (l1 ++ l2) = false → line_ok P l2 = false.
Proof.
  intros H1 H2 Hno. destruct (line_ok P l2) eqn:Hok; [|done].
  rewrite line_pattern_eq in *.
  apply line_ok_matches in Hok; [|apply line_pattern_inline|done].
  rewrite <-line_pattern_eq in Hok.
  apply (matches_extend_left l1) in Hok; [|done].
  rewrite line_pattern_eq, app_assoc in Hok.
  apply line_ok_matches in Hok;
    [congruence | apply line_pattern_inline | by apply nl_free_app].
Qed.

(** The scan of a text, line by line. *)
Lemma scan_lines ls tl :
  Forall nl_free ls → nl_free tl →
  scan P 0 (unlines ls tl) = line_pieces P ls tl.
Proof.
  intros Hls Htl. unfold line_pieces.
  induction Hls as [|l ls Hl _ IH].
  - unfold unlines. simpl. rewrite <-(app_nil_r tl) at 1.
    rewrite scan_keep_all; [by rewrite app_nil_r|].
    intros l1 c l2 ->. rewrite app_nil_r, line_pattern_eq.
    apply match_here_no_newline; [apply line_pattern_inline|].
    by apply nl_free_app in Htl as [_ ?].
  - rewrite unlines_cons. simpl flat_map. rewrite <-app_assoc, <-IH.
    destruct (line_ok P l) eqn:Hok.
    + change (l ++ NL :: unlines ls tl) with (l ++ [NL] ++ unlines ls tl).
      rewrite app_assoc. apply scan_match; [by destruct l|].
      rewrite <-app_assoc. cbn [app].
      rewrite line_pattern_eq, match_here_line;
        [|apply line_pattern_inline|done].
      rewrite <-line_pattern_eq. by rewrite Hok.
    + assert (Hnone : ∀ l1 l2, l = l1 ++ l2 →
                match_here P (l2 ++ NL :: unlines ls tl) = None).
      { intros l1 l2 ->. apply nl_free_app in Hl as [Hl1 Hl2].
        rewrite line_pattern_eq, match_here_line;
          [|apply line_pattern_inline|done].
        rewrite <-line_pattern_eq. by rewrite (line_ok_suffix l1 l2). }
      rewrite map_app, <-app_assoc. cbn [app map].
      rewrite scan_keep_all.
      * f_equal. apply scan_keep. apply (Hnone l []). by rewrite app_nil_r.
      * intros l1 c l2 ->. by apply (Hnone l1 (c :: l2)).
Qed.
End LineScan.

(** ** [re.sub] with a line pattern filters lines *)

Lemma flat_map_kept (u : str) :
  flat_map (λ x, match x with Kept c => [c] | Matched _ => [] end)
           (map Kept u) = u.
Proof. induction u as [|c u IH]; [done|]. simpl. by rewrite IH. Qed.

Lemma filter_agree {A} (P1 P2 : A → Prop)
    `{!∀ x, Decision (P1 x), !∀ x, Decision (P2 x)} (l : list A) :
  Forall (λ x, P1 x ↔ P2 x) l → filter P1 l = filter P2 l.
Proof.
  induction 1 as [|x l Hx _ IH]; [done|].
  rewrite !filter_cons, IH. apply decide_ext, Hx.
Qed.

Lemma Forall_filter_keep {A} (Q P : A → Prop) `{!∀ x, Decision (P x)}
    (l : list A) :
  Forall Q l → Forall Q (filter P l).
Proof.
  rewrite !Forall_forall. intros HQ x [_ Hx]%list_elem_of_filter. by apply HQ.
Qed.

Lemma re_sub_lines q ls tl :
  Forall item_inline q → Forall nl_free ls → nl_free tl →
  re_sub (line_pattern q) (unlines ls tl) =
  unlines (filter (λ l, line_ok (line_pattern q) l = false) ls) tl.
Proof.
  intros Hq Hls Htl. unfold re_sub. rewrite scan_lines by done.
  unfold line_pieces. rewrite flat_map_app, flat_map_kept.
  unfold unlines. f_equal. clear Hls Htl.
  induction ls as [|l ls IH]; [done|].
  rewrite filter_cons. simpl flat_map. rewrite flat_map_app, IH.
  destruct (line_ok (line_pattern q) l); simpl; [done|].
  by rewrite flat_map_kept, <-app_assoc.
Qed.

(** ** Substring tests *)

Lemma starts_with_spec (sub s : str) :
  starts_with sub s = true ↔ ∃ y, s = sub ++ y.
Proof.
  revert s. induction sub as [|a sub IH]; intros s; simpl.
  - split; [by exists s | done].
  - destruct s as [|b s].
    + split; [done | by intros [y ?]].
    + rewrite andb_true_iff, N.eqb_eq, IH. split.
      * intros [-> [y ->]]. by exists y.
      * intros [y [= -> ->]]. split; [done | by exists y].
Qed.

Lemma contains_spec (sub s : str) :
  contains sub s = true ↔ ∃ x y, s = x ++ sub ++ y.
Proof.
  induction s as [|c s IH]; simpl.
  - rewrite orb_false_r, starts_with_spec. split.
    + intros [y ->]. by exists [], y.
    + intros (x & y & E). destruct x; [by exists y|done].
  - rewrite orb_true_iff, starts_with_spec, IH. split.
    + intros [[y ->]|(x & y & ->)]; [by exists [], y | by exists (c :: x), y].
    + intros ([|c' x] & y & E); [left; by exists y|].
      injection E as -> ->. right. by exists x, y.
Qed.

(** ** The three patterns *)

Lemma re_escape_inline name : nl_free name → Forall item_inline (re_escape name).
Proof. unfold re_escape. intros H. apply Forall_fmap. by eapply Forall_impl. Qed.

Section OneFile.
Variable old_file : str.
Hypothesis old_file_inline : nl_free old_file.

(** What may stand between the file name and the final [.*\n]:
    nothing for the second pattern, [.*in Sources] and [.*Sources]
    for the first and the third. *)
Variable mid : pattern.
Hypothesis mid_inline : Forall item_inline mid.

Let P := line_pattern (re_escape old_file ++ mid ++ dot_star).

Lemma one_file_inline : Forall item_inline (re_escape old_file ++ mid ++ dot_star).
Proof.
  rewrite !Forall_app. split_and!; [by apply re_escape_inline | done |].
  by repeat constructor.
Qed.

Lemma line_ok_one_file l :
  nl_free l →
  line_ok P l = true ↔
  ∃ x y, l = x ++ old_file ++ y ∧ matches (mid ++ dot_star) y.
Proof.
  intros Hl. unfold P. rewrite line_pattern_eq.
  rewrite line_ok_matches, line_matches
    by (done || apply line_pattern_inline, one_file_inline).
  split.
  - intros (l' & E & _ & H). apply app_inj_tail in E as [<- _].
    apply matches_app_inv in H as (x & v & -> & Hx & H).
    apply matches_app_inv in H as (n & y & -> & ->%matches_re_escape & Hy).
    by exists x, y.
  - intros (x & y & -> & Hy). exists (x ++ old_file ++ y).
    split_and!; [done..|].
    apply nl_free_app in Hl as [Hx _].
    apply matches_app; [by apply matches_dot_star|].
    apply matches_app; [by apply matches_re_escape | done].
Qed.

Lemma line_ok_contains l :
  nl_free l → line_ok P l = true → contains old_file l = true.
Proof.
  intros Hl (x & y & -> & _)%line_ok_one_file; [|done].
  apply contains_spec. by exists x, y.
Qed.
End OneFile.

Lemma pat_file_ref_eq f : pat_file_ref f = line_pattern (re_escape f ++ [] ++ dot_star).
Proof. unfold pat_file_ref, line_pattern. by rewrite <-!app_assoc. Qed.

Lemma pat_build_file_eq f :
  pat_build_file f =
  line_pattern (re_escape f ++ (dot_star ++ re_escape (py "in Sources")) ++ dot_star).
Proof. unfold pat_build_file, line_pattern. by rewrite <-!app_assoc. Qed.

Lemma pat_build_phase_eq f :
  pat_build_phase f =
  line_pattern (re_escape f ++ (dot_star ++ re_escape (py "Sources")) ++ dot_star).
Proof. unfold pat_build_phase, line_pattern. by rewrite <-!app_assoc. Qed.

Lemma in_sources_inline : Forall item_inline (dot_star ++ re_escape (py "in Sources")).
Proof. repeat constructor; by vm_compute. Qed.

Lemma sources_inline : Forall item_inline (dot_star ++ re_escape (py "Sources")).
Proof. repeat constructor; by vm_compute. Qed.

(** The second pattern deletes the lines that contain the name. *)
Lemma line_ok_file_ref f l :
  nl_free f → nl_free l → line_ok (pat_file_ref f) l = contains f l.
Proof.
  intros Hf Hl. apply eq_true_iff_eq.
  rewrite pat_file_ref_eq, line_ok_one_file, contains_spec by (done || constructor).
  split.
  - intros (x & y & -> & _). by exists x, y.
  - intros (x & y & ->). exists x, y. split; [done|].
    apply matches_dot_star. by apply nl_free_app in Hl as [_ [_ ?]%nl_free_app].
Qed.

Lemma re_sub_file_ref f ls tl :
  nl_free f → Forall nl_free ls → nl_free tl →
  re_sub (pat_file_ref f) (unlines ls tl) =
  unlines (filter (λ l, contains f l = false) ls) tl.
Proof.
  intros Hf Hls Htl. rewrite pat_file_ref_eq, re_sub_lines;
    [|by apply one_file_inline; try constructor|done..].
  f_equal. apply filter_agree. eapply Forall_impl; [exact Hls|].
  intros l Hl. cbv beta. rewrite <-pat_file_ref_eq. by rewrite line_ok_file_ref.
Qed.

(** The body of the loop is the second substitution alone. *)
Lemma remove_file_lines f ls tl :
  nl_free f → Forall nl_free ls → nl_free tl →
  remove_file (unlines ls tl) f =
  unlines (filter (λ l, contains f l = false) ls) tl.
Proof.
  intros Hf Hls Htl. unfold remove_file.
  rewrite pat_build_file_eq, re_sub_lines;
    [|by apply one_file_inline; try apply in_sources_inline|done..].
  rewrite re_sub_file_ref; [|done|by apply Forall_filter_keep|done].
  rewrite pat_build_phase_eq, re_sub_lines;
    [|by apply one_file_inline; try apply sources_inline
     |by do 2 apply Forall_filter_keep|done].
  f_equal. rewrite list_filter_filter, list_filter_filter.
  apply filter_agree. eapply Forall_impl; [exact Hls|].
  intros l Hl. cbv beta. split; [by intros [[_ ?] _]|]. intros Hno. split_and!; [|done|].
  - apply not_true_is_false. intros H.
    apply line_ok_contains in H; [congruence|done|apply sources_inline|done].
  - apply not_true_is_false. intros H.
    apply line_ok_contains in H; [congruence|done|apply in_sources_inline|done].
Qed.

Lemma old_files_inline : Forall nl_free old_files.
Proof. repeat constructor; by vm_compute. Qed.

Lemma fold_remove_file fs ls tl :
  Forall nl_free fs → Forall nl_free ls → nl_free tl →
  fold_left remove_file fs (unlines ls tl) =
  unlines (filter (λ l, existsb (λ f, contains f l) fs = false) ls) tl.
Proof.
  intros Hfs. revert ls. induction Hfs as [|f fs Hf _ IH]; intros ls Hls Htl.
  - simpl. f_equal. symmetry. clear Hls. induction ls as [|l ls IHl]; [done|].
    by rewrite filter_cons_True, IHl.
  - simpl. rewrite remove_file_lines, IH by (done || by apply Forall_filter_keep).
    f_equal. rewrite list_filter_filter. apply list_filter_iff.
    intros l. rewrite orb_false_iff. tauto.
Qed.

(** The transform is the line filter. *)
Lemma clean_lines ls tl :
  Forall nl_free ls → nl_free tl →
  clean (unlines ls tl) =
  unlines (filter (λ l, mentions_old_file l = false) ls) tl.
Proof. intros. by apply fold_remove_file; [apply old_files_inline|..]. Qed.

(** ** Every match is one whole line *)

Lemma spans_kept i (u : str) ps :
  spans i (map Kept u ++ ps) = spans (i + length u) ps.
Proof.
  revert i. induction u as [|c u IH]; intros i; simpl.
  - by rewrite Nat.add_0_r.
  - rewrite IH. f_equal. lia.
Qed.

Lemma whole_line_spans p ls tl pre i m :
  Forall nl_free ls →
  pre = [] ∨ (∃ pre', pre = pre' ++ [NL]) →
  In (i, m) (spans (length pre) (line_pieces p ls tl)) →
  whole_line_at (pre ++ unlines ls tl) i m.
Proof.
  intros Hls. revert pre. unfold line_pieces.
  induction Hls as [|l ls Hl _ IH]; intros pre Hpre Hin.
  - simpl in Hin. rewrite <-(app_nil_r (map Kept tl)), spans_kept in Hin.
    by destruct Hin.
  - assert (Hnext : In (i, m) (spans (length (pre ++ l ++ [NL]))
              (flat_map (λ l, if line_ok p l then [Matched (l ++ [NL])]
                              else map Kept (l ++ [NL])) ls ++ map Kept tl)) →
            whole_line_at (pre ++ unlines (l :: ls) tl) i m).
    { intros H. apply IH in H; [|right; exists (pre ++ l); by rewrite <-app_assoc].
      by rewrite unlines_cons, <-!app_assoc in *. }
    simpl flat_map in Hin. rewrite <-app_assoc in Hin.
    destruct (line_ok p l).
    + simpl in Hin. destruct Hin as [[= <- <-]|Hin].
      * exists pre, l, (unlines ls tl). by rewrite unlines_cons.
      * apply Hnext. by rewrite !length_app in *.
    + rewrite spans_kept in Hin. apply Hnext. by rewrite !length_app in *.
Qed.

Lemma finditer_whole_lines q s i m :
  Forall item_inline q →
  In (i, m) (finditer (line_pattern q) s) → whole_line_at s i m.
Proof.
  intros Hq Hin. destruct (split_lines_spec s) as (E & Hls & Htl).
  unfold finditer in Hin. rewrite <-E, scan_lines in Hin by done.
  rewrite <-E. by apply (whole_line_spans (line_pattern q) _ _ []); [|left|].
Qed.

Lemma cleaner_pattern_shape f pat :
  In f old_files →
  In pat [pat_build_file f; pat_file_ref f; pat_build_phase f] →
  ∃ q, pat = line_pattern q ∧ Forall item_inline q.
Proof.
  intros Hf Hpat.
  assert (nl_free f) as Hnl.
  { pose proof old_files_inline as H. rewrite Forall_forall in H.
    by apply H, list_elem_of_In. }
  destruct Hpat as [<-|[<-|[<-|[]]]]; eexists; split.
  - apply pat_build_file_eq.
  - by apply one_file_inline; [|apply in_sources_inline].
  - apply pat_file_ref_eq.
  - by apply one_file_inline; [|constructor].
  - apply pat_build_phase_eq.
  - by apply one_file_inline; [|apply sources_inline].
Qed.

(** ** The transform as a whole *)

Lemma clean_idempotent s : clean (clean s) = clean s.
Proof.
  destruct (split_lines_spec s) as (E & Hls & Htl).
  rewrite <-E. rewrite clean_lines by done.
  rewrite clean_lines by (done || by apply Forall_filter_keep).
  f_equal. rewrite list_filter_filter. apply list_filter_iff. tauto.
Qed.

Lemma unlines_length ls tl :
  length (unlines ls tl) = sum_list (map (λ l, S (length l)) ls) + length tl.
Proof.
  unfold unlines. rewrite length_app. f_equal.
  induction ls as [|l ls IH]; [done|].
  simpl. rewrite !length_app, IH. simpl. lia.
Qed.

Lemma clean_length s : length (clean s) ≤ length s.
Proof.
  destruct (split_lines_spec s) as (E & Hls & Htl).
  rewrite <-E. rewrite clean_lines by done. rewrite !unlines_length.
  apply Nat.add_le_mono_r. clear.
  induction (split_lines s).1 as [|l ls IH]; [done|].
  rewrite filter_cons. case_decide; simpl; lia.
Qed.

Lemma clean_same_length s : length (clean s) = length s → clean s = s.
Proof.
  destruct (split_lines_spec s) as (E & Hls & Htl).
  rewrite <-E. rewrite clean_lines by done. rewrite !unlines_length.
  intros H. f_equal. apply Nat.add_cancel_r in H. clear -H.
  induction (split_lines s).1 as [|l ls IH]; [done|].
  assert (∀ ls : list str,
    sum_list (map (λ l, S (length l)) (filter (λ l, mentions_old_file l = false) ls))
    ≤ sum_list (map (λ l, S (length l)) ls)) as Hle.
  { clear. induction ls as [|l ls IH]; [done|].
    rewrite filter_cons. case_decide; simpl; lia. }
  rewrite filter_cons in *. case_decide.
  - simpl in H. f_equal. apply IH. lia.
  - simpl in H. specialize (Hle ls). lia.
Qed.

(** ** Runs of the cleaner *)

Lemma backup_file_eq :
  backup_file =
  "/Users/davidnyman/Code/FrequencyFinder/FrequencyFinder.xcodeproj/project.pbxproj.backup"%string.
Proof. by vm_compute. Qed.

Lemma backup_file_fresh : backup_file ≠ project_file.
Proof. rewrite backup_file_eq. by intros ?%String.eqb_eq. Qed.

Lemma run_missing w :
  files w !! project_file = None →
  clean_xcode_references w =
  (Ok false,
   World (files w) (trace w ++ [EvExists project_file; EvPrint MsgNotFound])).
Proof.
  intros H. unfold clean_xcode_references, mbind, io_bind, path_exists.
  rewrite H, bool_decide_eq_false_2 by by intros [? ?].
  simpl. unfold log. simpl. by rewrite <-app_assoc.
Qed.

Lemma run_found w c :
  files w !! project_file = Some c →
  clean_xcode_references w =
  if negb (length (clean c) =? length c) then
    (Ok true,
     World (<[project_file := clean c]> (<[backup_file := c]> (files w)))
           (trace w ++
            [EvExists project_file;
             EvCopy project_file backup_file;
             EvPrint (MsgBackup backup_file);
             EvRead project_file;
             EvWrite project_file (clean c);
             EvPrint (MsgCleaned (Z.of_nat (length c) - Z.of_nat (length (clean c))));
             EvPrint MsgBuildHint]))
  else
    (Ok false,
     World (<[backup_file := c]> (files w))
           (trace w ++
            [EvExists project_file;
             EvCopy project_file backup_file;
             EvPrint (MsgBackup backup_file);
             EvRead project_file;
             EvPrint MsgNoRefs])).
Proof.
  intros H. unfold clean_xcode_references, mbind, io_bind, path_exists.
  rewrite H, bool_decide_eq_true_2 by by eexists.
  cbn [negb]. unfold copy2, log. cbn [files trace]. rewrite H.
  unfold print, log, read_text. cbn [files trace].
  rewrite lookup_insert_ne, H by apply backup_file_fresh.
  unfold log. cbn [files trace].
  destruct (negb (length (clean c) =? length c));
    unfold write_text, mret, io_ret; cbn [files trace];
    by rewrite <-!app_assoc.
Qed.

(** ** Runs of the checker *)

Lemma joinpath_inj base f g : joinpath base f = joinpath base g → f = g.
Proof.
  unfold joinpath. induction base as [|a base IH]; simpl.
  - by intros [= ?].
  - intros [= ?]. auto.
Qed.

Lemma check_key_files_run todo all_exist w :
  check_key_files todo all_exist w =
  (Ok (all_exist &&
       forallb (λ f, bool_decide (is_Some (files w !! joinpath base_path f))) todo),
   World (files w)
         (trace w ++
          flat_map (λ f, [EvExists (joinpath base_path f); EvPrint (mark (files w) f)])
                   todo)).
Proof.
  revert all_exist w. induction todo as [|f todo IH]; intros all_exist w.
  - simpl. rewrite andb_true_r, app_nil_r. by destruct w.
  - cbn [check_key_files]. unfold mbind, io_bind, path_exists, mark.
    cbn [forallb flat_map].
    destruct (bool_decide (is_Some (files w !! joinpath base_path f)));
      unfold print, log; rewrite IH; cbn [files trace];
      rewrite <-!app_assoc; cbn [app]; [done|].
    by rewrite andb_false_r.
Qed.

Lemma old_files_nl_free f : In f old_files → nl_free f.
Proof.
  intros Hf. pose proof old_files_inline as H. rewrite Forall_forall in H.
  by apply H, list_elem_of_In.
Qed.

Lemma check_new_structure_run fs :
  check_new_structure (start fs) =
  (Ok (forallb (λ f, bool_decide (is_Some (fs !! joinpath base_path f))) key_files),
   World fs
     (EvPrint MsgChecking ::
      flat_map (λ f, [EvExists (joinpath base_path f); EvPrint (mark fs f)])
               key_files)).
Proof.
  unfold check_new_structure, mbind, io_bind, print, log, start.
  cbn [files trace]. by rewrite check_key_files_run.
Qed.

Lemma printed_check fs todo :
  printed
    (flat_map (λ f, [EvExists (joinpath base_path f); EvPrint (mark fs f)]) todo) =
  map (mark fs) todo.
Proof. induction todo as [|f todo IH]; [done|]. cbn. by rewrite <-IH. Qed.

Lemma exists_queries_check fs todo :
  exists_queries
    (flat_map (λ f, [EvExists (joinpath base_path f); EvPrint (mark fs f)]) todo) =
  map (joinpath base_path) todo.
Proof. induction todo as [|f todo IH]; [done|]. cbn. by rewrite <-IH. Qed.

Lemma run_clean_manifest w c :
  files w !! project_file = Some c → clean c = c →
  clean_xcode_references w =
  (Ok false,
   World (<[backup_file := c]> (files w))
         (trace w ++
          [EvExists project_file; EvCopy project_file backup_file;
           EvPrint (MsgBackup backup_file); EvRead project_file;
           EvPrint MsgNoRefs])).
Proof.
  intros H E. rewrite (run_found w c H), E. by rewrite Nat.eqb_refl.
Qed.

(** * The claims *)

(** C1 (as amended): the transform removes every newline-terminated
    line that contains one of the five file names and leaves the rest
    of the text as it is, in order: the lines that contain none of the
    names and whatever follows the last newline.  On the manifest with
    the lines [A.build /* OldSpotifyManager.swift in Sources */] and
    [B.build /* OtherFile.swift in Sources */] only the second line
    remains, with or without a newline at the end of the text. *)
Theorem C1_clean_drops_terminated_lines :
  (∀ s,
     s = unlines (split_lines s).1 (split_lines s).2 ∧
     clean s =
     unlines (filter (λ l, mentions_old_file l = false) (split_lines s).1)
             (split_lines s).2) ∧
  clean (line_A ++ [NL] ++ line_B ++ [NL]) = line_B ++ [NL] ∧
  clean (line_A ++ [NL] ++ line_B) = line_B.
Proof.
  split; [|split; vm_compute; reflexivity].
  intros s. destruct (split_lines_spec s) as (E & Hls & Htl).
  split; [done|]. rewrite <-E at 1. by apply clean_lines.
Qed.

(** C1 as stated fails: it is not true that every line containing a
    file name of the list is removed.  A manifest that is the single
    line [A.build /* OldSpotifyManager.swift in Sources */] without a
    newline at its end comes back unchanged. *)
Lemma C1_final_line_without_newline_survives :
  ¬ (∀ s f,
       In f old_files →
       (∃ l, In l (all_lines s) ∧ contains f l = true) →
       ∀ l, In l (all_lines (clean s)) → contains f l = false).
Proof.
  intros H.
  specialize (H line_A (py "OldSpotifyManager.swift")).
  assert (all_lines line_A = [line_A]) as E1 by (vm_compute; reflexivity).
  assert (clean line_A = line_A) as E2 by (vm_compute; reflexivity).
  assert (contains (py "OldSpotifyManager.swift") line_A = true) as E3
    by (vm_compute; reflexivity).
  rewrite E2, E1 in H.
  assert (contains (py "OldSpotifyManager.swift") line_A = false) as Hno.
  { apply H.
    - do 3 right. left. reflexivity.
    - exists line_A. split; [left; reflexivity | exact E3].
    - left. reflexivity. }
  congruence.
Qed.

(** C2: the checker returns [True] exactly when all four key files
    exist under the base directory; it prints, after the heading, one
    mark per key file in order, a check mark for a file that exists
    and a cross for one that does not.  With any one key file removed
    it returns [False], the removed file gets the cross, and the marks
    of the other files are what they were.  Nothing is written. *)
Theorem C2_check_flags_missing_key_files (fs : gmap string str) (f : string) :
  In f key_files →
  let fs' := delete (joinpath base_path f) fs in
  (∃ b t,
     check_new_structure (start fs) = (Ok b, World fs t) ∧
     (b = true ↔ ∀ p, In p key_files → is_Some (fs !! joinpath base_path p)) ∧
     printed t = MsgChecking :: map (mark fs) key_files) ∧
  (∃ t,
     check_new_structure (start fs') = (Ok false, World fs' t) ∧
     printed t = MsgChecking :: map (mark fs') key_files) ∧
  mark fs' f = MsgMissing f ∧
  (∀ g, g ≠ f → mark fs' g = mark fs g) ∧
  (∀ g, mark fs g = MsgPresent g ↔ is_Some (fs !! joinpath base_path g)).
Proof.
  intros Hf fs'.
  assert (∀ fs0 : gmap string str,
            printed (EvPrint MsgChecking ::
              flat_map (λ f, [EvExists (joinpath base_path f); EvPrint (mark fs0 f)])
                       key_files) = MsgChecking :: map (mark fs0) key_files) as Hp.
  { intros fs0. change (printed (EvPrint ?m :: ?t)) with (m :: printed t).
    by rewrite printed_check. }
  assert (fs' !! joinpath base_path f = None) as Hgone by apply lookup_delete_eq.
  split_and!.
  - eexists _, _. split; [apply check_new_structure_run|]. split; [|apply Hp].
    rewrite forallb_forall. split; intros H p Hin.
    + by eapply bool_decide_eq_true_1, H.
    + by apply bool_decide_eq_true_2, H.
  - eexists. split; [|apply Hp]. rewrite check_new_structure_run. do 2 f_equal.
    apply not_true_is_false. rewrite forallb_forall. intros H.
    apply H, bool_decide_eq_true_1 in Hf. rewrite Hgone in Hf. by destruct Hf.
  - unfold mark. rewrite Hgone. by rewrite bool_decide_eq_false_2 by by intros [? ?].
  - intros g Hg. unfold mark, fs'. rewrite lookup_delete_ne; [done|].
    intros E%joinpath_inj. congruence.
  - intros g. unfold mark. case_bool_decide; naive_solver.
Qed.

(** C2 at a concrete input: the second key file removed from the
    empty file system. *)
Lemma C2_witness :
  In "Core/Models/Spotify/SpotifyModels.swift"%string key_files ∧
  ∃ t, check_new_structure
         (start (delete (joinpath base_path "Core/Models/Spotify/SpotifyModels.swift")
                        (∅ : gmap string str))) =
       (Ok false, World (delete (joinpath base_path "Core/Models/Spotify/SpotifyModels.swift") ∅) t).
Proof.
  assert (In "Core/Models/Spotify/SpotifyModels.swift"%string key_files) as H
    by (right; left; reflexivity).
  split; [exact H|].
  destruct (C2_check_flags_missing_key_files ∅ _ H) as (_ & (t & Ht & _) & _).
  exists t. exact Ht.
Defined.

(** C3: the transform is idempotent, and a second run of the cleaner
    right after a first one returns [False], prints "no references
    found", writes nothing to the manifest and leaves it as the first
    run left it. *)
Theorem C3_second_run_finds_nothing (fs : gmap string str) (c : str) :
  fs !! project_file = Some c →
  clean (clean c) = clean c ∧
  ∃ r1 w1 w2,
    clean_xcode_references (start fs) = (Ok r1, w1) ∧
    files w1 !! project_file = Some (clean c) ∧
    clean_xcode_references (start (files w1)) = (Ok false, w2) ∧
    files w2 !! project_file = Some (clean c) ∧
    printed (trace w2) = [MsgBackup backup_file; MsgNoRefs] ∧
    filter (λ e, is_write e = true) (trace w2) = [EvCopy project_file backup_file].
Proof.
  intros H. split; [apply clean_idempotent|].
  assert (∃ r1 w1, clean_xcode_references (start fs) = (Ok r1, w1) ∧
                   files w1 !! project_file = Some (clean c)) as (r1 & w1 & E1 & H1).
  { rewrite (run_found (start fs) c H).
    destruct (length (clean c) =? length c) eqn:El; cbn [negb].
    - apply Nat.eqb_eq, clean_same_length in El. eexists _, _. split; [done|].
      cbn [files]. rewrite lookup_insert_ne by apply backup_file_fresh.
      by rewrite El.
    - eexists _, _. split; [done|]. cbn [files]. apply lookup_insert_eq. }
  exists r1, w1. eexists. split; [done|]. split; [done|].
  split; [by apply (run_clean_manifest (start (files w1))), clean_idempotent|].
  cbn [files trace start]. split_and!; [|done..].
  by rewrite lookup_insert_ne by apply backup_file_fresh.
Qed.

(** C3 at a concrete input: the manifest with the two sample lines. *)
Lemma C3_witness :
  ({[ project_file := two_lines ]} : gmap string str) !! project_file = Some two_lines ∧
  clean (clean two_lines) = clean two_lines ∧
  ∃ r1 w1 w2,
    clean_xcode_references (start {[ project_file := two_lines ]}) = (Ok r1, w1) ∧
    clean_xcode_references (start (files w1)) = (Ok false, w2) ∧
    printed (trace w2) = [MsgBackup backup_file; MsgNoRefs].
Proof.
  assert (({[ project_file := two_lines ]} : gmap string str) !! project_file
          = Some two_lines) as H by apply lookup_singleton_eq.
  split; [exact H|].
  destruct (C3_second_run_finds_nothing _ _ H)
    as (Hi & r1 & w1 & w2 & E1 & _ & E2 & _ & Hp & _).
  split; [exact Hi|]. exists r1, w1, w2.
  split; [exact E1|]. split; [exact E2 | exact Hp].
Defined.

(** C4: whenever the manifest exists, the run ends with a backup file
    whose content is the manifest's content from before the run.  The
    copy is the first thing done after the existence test; afterwards
    nothing is copied again and only the manifest is written, also in
    a run that finds no reference. *)
Theorem C4_backup_holds_original (w : world) (c : str) :
  files w !! project_file = Some c →
  ∃ r w' t,
    clean_xcode_references w = (Ok r, w') ∧
    files w' !! backup_file = Some c ∧
    trace w' =
      trace w ++ [EvExists project_file; EvCopy project_file backup_file] ++ t ∧
    Forall (λ e, match e with
                 | EvCopy _ _ => False
                 | EvWrite p _ => p = project_file
                 | _ => True
                 end) t.
Proof.
  intros H. rewrite (run_found w c H).
  destruct (negb (length (clean c) =? length c)); eexists _, _, _;
    (split; [reflexivity|]); cbn [files trace].
  - split; [|split; [reflexivity|by repeat constructor]].
    rewrite lookup_insert_ne by (apply not_eq_sym, backup_file_fresh).
    apply lookup_insert_eq.
  - split; [apply lookup_insert_eq|]. split; [reflexivity|by repeat constructor].
Qed.

(** C4 at a concrete input: a manifest without old references. *)
Lemma C4_witness :
  files (start {[ project_file := line_B ++ [NL] ]}) !! project_file
    = Some (line_B ++ [NL]) ∧
  ∃ r w',
    clean_xcode_references (start {[ project_file := line_B ++ [NL] ]}) = (Ok r, w') ∧
    files w' !! backup_file = Some (line_B ++ [NL]).
Proof.
  assert (files (start {[ project_file := line_B ++ [NL] ]}) !! project_file
          = Some (line_B ++ [NL])) as H by apply lookup_singleton_eq.
  split; [exact H|].
  destruct (C4_backup_holds_original _ _ H) as (r & w' & t & E & Hb & _).
  exists r, w'. split; [exact E | exact Hb].
Defined.

(** C5: when the manifest does not exist the cleaner returns [False],
    prints "not found" and does nothing else: the files are what they
    were, no backup is made, and the trace has the existence test and
    the message only. *)
Theorem C5_missing_manifest_no_changes (w : world) :
  files w !! project_file = None →
  ∃ w',
    clean_xcode_references w = (Ok false, w') ∧
    files w' = files w ∧
    files w' !! backup_file = files w !! backup_file ∧
    trace w' = trace w ++ [EvExists project_file; EvPrint MsgNotFound].
Proof. intros H. rewrite (run_missing w H). by eexists. Qed.

(** C5 at a concrete input: the empty file system. *)
Lemma C5_witness :
  files (start ∅) !! project_file = None ∧
  ∃ w', clean_xcode_references (start ∅) = (Ok false, w') ∧ files w' = ∅.
Proof.
  assert (files (start ∅) !! project_file = None) as H by apply lookup_empty.
  split; [exact H|].
  destruct (C5_missing_manifest_no_changes _ H) as (w' & E & Hf & _).
  exists w'. split; [exact E | exact Hf].
Defined.

(** C6: the manifest is written if and only if the length of the
    transformed text differs from the original length.  With equal
    lengths the run prints "no references found", returns [False] and
    only the backup has been made; with different lengths the manifest
    is overwritten with the transformed text, and the run reports the
    original length minus the new one, which is positive. *)
Theorem C6_write_iff_length_changed (w : world) (c : str) :
  files w !! project_file = Some c →
  ∃ r w' t,
    clean_xcode_references w = (Ok r, w') ∧ trace w' = trace w ++ t ∧
    ((∃ p x, In (EvWrite p x) t) ↔ length (clean c) ≠ length c) ∧
    (length (clean c) = length c →
       r = false ∧
       files w' = <[backup_file := c]> (files w) ∧
       files w' !! project_file = Some c ∧
       printed t = [MsgBackup backup_file; MsgNoRefs]) ∧
    (length (clean c) ≠ length c →
       r = true ∧
       files w' = <[project_file := clean c]> (<[backup_file := c]> (files w)) ∧
       In (EvWrite project_file (clean c)) t ∧
       length (clean c) < length c ∧
       printed t =
         [MsgBackup backup_file;
          MsgCleaned (Z.of_nat (length c) - Z.of_nat (length (clean c)));
          MsgBuildHint]).
Proof.
  intros H. rewrite (run_found w c H).
  destruct (length (clean c) =? length c) eqn:El; cbn [negb];
    eexists _, _, _; (split; [reflexivity|]); cbn [files trace];
    (split; [reflexivity|]).
  - apply Nat.eqb_eq in El. split_and!.
    + split; [|done]. intros (p & x & Hin). simpl in Hin.
      repeat (destruct Hin as [Hin|Hin]; [discriminate|]). done.
    + intros _. split_and!; [done..| |done].
      by rewrite lookup_insert_ne by apply backup_file_fresh.
    + done.
  - apply Nat.eqb_neq in El. split_and!.
    + split; [done|]. intros _. eexists _, _. do 4 right. left. reflexivity.
    + done.
    + intros _. split_and!; [done..| | |done].
      * do 4 right. left. reflexivity.
      * pose proof (clean_length c). lia.
Qed.

(** C6 at a concrete input: the manifest with the two sample lines. *)
Lemma C6_witness :
  files (start {[ project_file := two_lines ]}) !! project_file = Some two_lines ∧
  ∃ r w' t,
    clean_xcode_references (start {[ project_file := two_lines ]}) = (Ok r, w') ∧
    trace w' = trace (start {[ project_file := two_lines ]}) ++ t.
Proof.
  assert (files (start {[ project_file := two_lines ]}) !! project_file
          = Some two_lines) as H by apply lookup_singleton_eq.
  split; [exact H|].
  destruct (C6_write_iff_length_changed _ _ H) as (r & w' & t & E & Ht & _).
  exists r, w', t. split; [exact E | exact Ht].
Defined.

(** C7: for every text and every file name of the list, the three
    substitutions in the order of the loop body give the same text as
    the second substitution (any line containing the name) alone. *)
Theorem C7_file_ref_pattern_subsumes (content old_file : str) :
  In old_file old_files →
  re_sub (pat_build_phase old_file)
    (re_sub (pat_file_ref old_file)
       (re_sub (pat_build_file old_file) content)) =
  re_sub (pat_file_ref old_file) content.
Proof.
  intros Hf%old_files_nl_free.
  change (remove_file content old_file = re_sub (pat_file_ref old_file) content).
  destruct (split_lines_spec content) as (E & Hls & Htl). rewrite <-E.
  by rewrite remove_file_lines, re_sub_file_ref.
Qed.

(** C7 at a concrete input. *)
Lemma C7_witness :
  In (py "OldSpotifyManager.swift") old_files ∧
  re_sub (pat_build_phase (py "OldSpotifyManager.swift"))
    (re_sub (pat_file_ref (py "OldSpotifyManager.swift"))
       (re_sub (pat_build_file (py "OldSpotifyManager.swift")) two_lines)) =
  re_sub (pat_file_ref (py "OldSpotifyManager.swift")) two_lines.
Proof.
  assert (In (py "OldSpotifyManager.swift") old_files) as H
    by (do 3 right; left; reflexivity).
  split; [exact H | exact (C7_file_ref_pattern_subsumes two_lines _ H)].
Defined.

(** C8 (as amended): for every text, every match of each of the three
    patterns found by the substitution is exactly one whole line: it
    starts at the beginning of the text or right after a newline, and
    it is the content of that line followed by the line's newline. *)
Theorem C8_every_match_is_one_whole_line
    (old_file : str) (pat : pattern) (s : str) (i : nat) (m : str) :
  In old_file old_files →
  In pat [pat_build_file old_file; pat_file_ref old_file; pat_build_phase old_file] →
  In (i, m) (finditer pat s) →
  whole_line_at s i m.
Proof.
  intros Hf Hpat Hin.
  destruct (cleaner_pattern_shape _ _ Hf Hpat) as (q & -> & Hq).
  by apply (finditer_whole_lines q).
Qed.

(** C8 as stated fails: there is no text on which a match of one of
    the patterns starts inside a line or reaches beyond the line of
    the matched file name. *)
Lemma C8_no_match_leaves_its_line :
  ¬ (∃ old_file pat s i m,
       In old_file old_files ∧
       In pat [pat_build_file old_file; pat_file_ref old_file;
               pat_build_phase old_file] ∧
       In (i, m) (finditer pat s) ∧
       ¬ whole_line_at s i m).
Proof.
  intros (f & pat & s & i & m & Hf & Hpat & Hin & Hno). apply Hno.
  destruct (cleaner_pattern_shape _ _ Hf Hpat) as (q & -> & Hq).
  by apply (finditer_whole_lines q).
Qed.

(** C8 at a concrete input: the old reference on the second line. *)
Lemma C8_witness :
  In (py "OldSpotifyManager.swift") old_files ∧
  In (pat_file_ref (py "OldSpotifyManager.swift"))
     [pat_build_file (py "OldSpotifyManager.swift");
      pat_file_ref (py "OldSpotifyManager.swift");
      pat_build_phase (py "OldSpotifyManager.swift")] ∧
  In (41, line_A ++ [NL]) (finditer (pat_file_ref (py "OldSpotifyManager.swift"))
                               (line_B ++ [NL] ++ line_A ++ [NL])) ∧
  whole_line_at (line_B ++ [NL] ++ line_A ++ [NL]) 41 (line_A ++ [NL]).
Proof.
  assert (In (py "OldSpotifyManager.swift") old_files) as H1
    by (do 3 right; left; reflexivity).
  assert (In (pat_file_ref (py "OldSpotifyManager.swift"))
     [pat_build_file (py "OldSpotifyManager.swift");
      pat_file_ref (py "OldSpotifyManager.swift");
      pat_build_phase (py "OldSpotifyManager.swift")]) as H2
    by (right; left; reflexivity).
  assert (In (41, line_A ++ [NL])
             (finditer (pat_file_ref (py "OldSpotifyManager.swift"))
                       (line_B ++ [NL] ++ line_A ++ [NL]))) as H3
    by (vm_compute; left; reflexivity).
  split; [exact H1|]. split; [exact H2|]. split; [exact H3|].
  exact (C8_every_match_is_one_whole_line _ _ _ _ _ H1 H2 H3).
Defined.

(** C9 (as amended): the checker does not consult the mapping.  On
    every file system the paths whose existence it asks for are the
    four key files under the base directory, in order; only one of
    them, [App/FrequencyFinder.swift], is a value of the mapping. *)
Theorem C9_checker_ignores_mapping (fs : gmap string str) :
  exists_queries (trace (check_new_structure (start fs)).2) =
    map (joinpath base_path) key_files ∧
  filter (λ v, v ∈ mapping_values) key_files = ["App/FrequencyFinder.swift"%string].
Proof.
  split; [|vm_compute; reflexivity].
  rewrite check_new_structure_run. cbn [snd trace].
  change (exists_queries (?e :: ?t)) with (exists_queries t).
  apply exists_queries_check.
Qed.

(** C9 as stated fails: the checked paths are not taken from the
    values of the mapping.  [Core/Models/Spotify/SpotifyModels.swift]
    is checked and is not a value of the mapping. *)
Lemma C9_checked_path_not_a_mapping_value :
  ¬ (∀ fs p,
       In p (exists_queries (trace (check_new_structure (start fs)).2)) →
       ∃ v, v ∈ mapping_values ∧ p = joinpath base_path v).
Proof.
  intros H.
  destruct (H ∅ (joinpath base_path "Core/Models/Spotify/SpotifyModels.swift"))
    as (v & Hv & E).
  - rewrite check_new_structure_run. cbn [snd trace].
    change (exists_queries (?e :: ?t)) with (exists_queries t).
    rewrite exists_queries_check. right. left. reflexivity.
  - apply joinpath_inj in E as <-.
    revert Hv. apply (bool_decide_eq_false_1 _). vm_compute. reflexivity.
Qed.

(** C10: what follows the last newline of the text is left in place by
    the transform, whatever it contains, and the lines that remain are
    a sub-list of the terminated lines.  Each of the three patterns,
    for each file name, matches only a newline-free text followed by a
    newline.  A manifest whose final line mentions
    [OldSpotifyManager.swift] and has no newline is returned as is. *)
Theorem C10_final_line_without_newline_is_kept :
  (∀ s,
     (split_lines (clean s)).2 = (split_lines s).2 ∧
     ∃ kept,
       sublist kept (split_lines s).1 ∧
       clean s = unlines kept (split_lines s).2) ∧
  Forall (λ old_file,
    Forall (λ pat,
      ∀ s, match match_here pat s with
           | Some r => ∃ l, nl_free l ∧ s = l ++ NL :: r
           | None => True
           end)
      [pat_build_file old_file; pat_file_ref old_file; pat_build_phase old_file])
    old_files ∧
  clean (line_B ++ [NL] ++ line_A) = line_B ++ [NL] ++ line_A.
Proof.
  split_and!; [| |vm_compute; reflexivity].
  - intros s. destruct (split_lines_spec s) as (E & Hls & Htl).
    assert (clean s = unlines (filter (λ l, mentions_old_file l = false)
                                 (split_lines s).1) (split_lines s).2) as Ec.
    { rewrite <-E at 1. by apply clean_lines. }
    split.
    + rewrite Ec, split_lines_unlines; [done| |done].
      by apply Forall_filter_keep.
    + eexists. split; [|exact Ec]. apply sublist_filter.
  - apply Forall_forall. intros f Hf%list_elem_of_In.
    apply Forall_forall. intros pat Hpat%list_elem_of_In s.
    destruct (cleaner_pattern_shape _ _ Hf Hpat) as (q & -> & Hq).
    destruct (match_here (line_pattern q) s) as [r|] eqn:Em; [|done].
    rewrite line_pattern_eq in Em.
    apply match_here_sound in Em as (u & -> & Hu).
    apply line_matches in Hu as (l & -> & Hl & _);
      [|by apply line_pattern_inline].
    exists l. by rewrite <-app_assoc.
Qed.
